(** * Verification of [backend/scripts/patch_appointments.py]

    The script reads one JavaScript file as text, looks up two marker
    comments with [str.find], replaces the span between the two offsets by a
    literal block, writes the file back and prints a status line.

    Python strings are sequences of Unicode code points; they are modelled
    as lists of code points ([list N]).  Integers are unbounded ([Z]).

    The file store ([gmap string (list N)]) keeps every file as the text
    that text-mode I/O presents to the program: what [f.read()] returns and
    what [f.write] is given.  Decoding, encoding and the translation of line
    ends sit below that level; text that was read holds no carriage return,
    neither does the replacement block, so what the script writes is read
    back unchanged.  Opening a missing file raises; a write always
    succeeds. *)

From Stdlib Require Import ZArith NArith Ascii String Decimal.
From Stdlib Require DecimalZ.
From stdpp Require Import base decidable list gmap strings fin_maps.

#[local] Open Scope Z_scope.

(** ** Sequences: [startswith], [find] and slices *)

Section sequences.
Context {A : Type} `{EqDecision A}.
Implicit Types s sub pre post mid m : list A.

(** [s.startswith(sub)] *)
Fixpoint startswith s sub {struct sub} : bool :=
  match sub with
  | [] => true
  | x :: sub' =>
      match s with
      | [] => false
      | y :: s' => bool_decide (y = x) && startswith s' sub'
      end
  end.

(** [s.endswith(sub)] *)
Definition endswith s sub : bool := startswith (reverse s) (reverse sub).

(** Left-to-right scan behind [s.find(sub)]: the lowest offset at which
    [sub] starts, counted from [i]; [-1] when there is none. *)
Fixpoint find_from s sub (i : Z) {struct s} : Z :=
  if startswith s sub then i
  else match s with
       | [] => -1
       | _ :: s' => find_from s' sub (i + 1)
       end.

(** [s.find(sub)] *)
Definition find s sub : Z := find_from s sub 0.

(** Bound of a slice: a negative bound counts from the end, and every
    bound is clamped to [0 .. len(s)]. *)
Definition slice_index (n : nat) (i : Z) : nat :=
  Z.to_nat (if i <? 0 then Z.max 0 (Z.of_nat n + i) else Z.min i (Z.of_nat n)).

(** [s[:i]] *)
Definition slice_to s (i : Z) : list A := take (slice_index (length s) i) s.

(** [s[i:]] *)
Definition slice_from s (i : Z) : list A := drop (slice_index (length s) i) s.

(** *** What "occurs" means, independently of the scan *)

Definition occurs_at s sub (i : nat) : Prop :=
  ∃ pre post, s = pre ++ sub ++ post ∧ length pre = i.

Definition occurs s sub : Prop := ∃ i, occurs_at s sub i.

Definition first_occurrence s sub (i : nat) : Prop :=
  occurs_at s sub i ∧ ∀ j, occurs_at s sub j → (i ≤ j)%nat.

Definition occurs_once_at s sub (i : nat) : Prop :=
  occurs_at s sub i ∧ ∀ j, occurs_at s sub j → j = i.

(** No proper split of [m] puts its tail at the start of [mid] or its
    head at the end of [mid]. *)
Definition clean_boundary mid m : bool :=
  forallb (λ k, negb (startswith mid (drop k m))
                && negb (endswith mid (take k m)))
          (seq 1 (length m - 1)).
End sequences.

(** ** Text: code points, literals and integer formatting *)

(** A Python [str]: the list of its code points. *)
Abbreviation str := (list N).

(** The interpreter reads its source as UTF-8, so a literal denotes the
    code points its bytes decode to.  Only well-formed literals are decoded
    here; a truncated sequence yields U+FFFD. *)
Fixpoint decode_utf8 (bs : list N) : str :=
  match bs with
  | [] => []
  | b0 :: r0 =>
      if (b0 <? 0x80)%N then b0 :: decode_utf8 r0
      else match r0 with
      | [] => [0xFFFD%N]
      | b1 :: r1 =>
          if (b0 <? 0xE0)%N
          then ((b0 - 0xC0) * 64 + (b1 - 0x80))%N :: decode_utf8 r1
          else match r1 with
          | [] => [0xFFFD%N]
          | b2 :: r2 =>
              if (b0 <? 0xF0)%N
              then ((b0 - 0xE0) * 4096 + (b1 - 0x80) * 64 + (b2 - 0x80))%N
                     :: decode_utf8 r2
              else match r2 with
              | [] => [0xFFFD%N]
              | b3 :: r3 =>
                  ((b0 - 0xF0) * 262144 + (b1 - 0x80) * 4096
                   + (b2 - 0x80) * 64 + (b3 - 0x80))%N :: decode_utf8 r3
              end
          end
      end
  end.

(** The text denoted by a literal. *)
Definition lit (s : string) : str :=
  decode_utf8 (N_of_ascii <$> list_ascii_of_string s).

Arguments lit : simpl never.

Definition newline : N := 10%N.

(** A line break inside a literal. *)
Definition nl : string := String (ascii_of_nat 10) EmptyString.

(** Decimal digits, most significant first. *)
Fixpoint digits (d : Decimal.uint) : str :=
  match d with
  | Nil => []
  | D0 d => 48%N :: digits d
  | D1 d => 49%N :: digits d
  | D2 d => 50%N :: digits d
  | D3 d => 51%N :: digits d
  | D4 d => 52%N :: digits d
  | D5 d => 53%N :: digits d
  | D6 d => 54%N :: digits d
  | D7 d => 55%N :: digits d
  | D8 d => 56%N :: digits d
  | D9 d => 57%N :: digits d
  end.

(** [str(z)], which is also how an f-string renders an [int] field. *)
Definition int_str (z : Z) : str :=
  match Z.to_int z with
  | Decimal.Pos d => digits d
  | Decimal.Neg d => 45%N :: digits d
  end.

(** ** The process: file store, trace and control *)

Inductive event :=
  | EvRead (path : string)
  | EvWrite (path : string) (data : str)
  | EvPrint (line : str).

Record world := World {
  files : gmap string str;
  trace : list event;
}.

Inductive exn := FileNotFoundError (path : string).

(** How a computation ends: with a value, by [exit(code)], or by an
    exception nobody catches. *)
Inductive result (A : Type) :=
  | Ok (a : A)
  | SystemExit (code : Z)
  | Raised (e : exn).
Arguments Ok {A} a.
Arguments SystemExit {A} code.
Arguments Raised {A} e.

Definition M (A : Type) : Type := world → result A * world.

#[export] Instance M_ret : MRet M := λ A a w, (Ok a, w).

#[export] Instance M_bind : MBind M := λ A B f m w,
  match m w with
  | (Ok a, w') => f a w'
  | (SystemExit c, w') => (SystemExit c, w')
  | (Raised e, w') => (Raised e, w')
  end.

Definition emit (e : event) (w : world) : world :=
  {| files := files w; trace := trace w ++ [e] |}.

(** [with open(path, "r", encoding="utf-8") as f: f.read()] *)
Definition read_text (path : string) : M str := λ w,
  match files w !! path with
  | Some data => (Ok data, emit (EvRead path) w)
  | None => (Raised (FileNotFoundError path), w)
  end.

(** [with open(path, "w", encoding="utf-8") as f: f.write(data)] *)
Definition write_text (path : string) (data : str) : M unit := λ w,
  (Ok (), {| files := <[path := data]> (files w);
             trace := trace w ++ [EvWrite path data] |}).

(** [print(line)] *)
Definition print (line : str) : M unit := λ w, (Ok (), emit (EvPrint line) w).

(** [exit(code)] *)
Definition exit {A} (code : Z) : M A := λ w, (SystemExit code, w).

(** Exit status of the interpreter once the script has ended. *)
Definition exit_status {A} (r : result A) : Z :=
  match r with
  | Ok _ => 0
  | SystemExit c => c
  | Raised _ => 1
  end.

(** What a run printed, in order. *)
Definition printed (t : list event) : list str :=
  omap (λ e, match e with EvPrint l => Some l | _ => None end) t.

(** Whether a trace holds a write. *)
Definition writes (t : list event) : list (string * str) :=
  omap (λ e, match e with EvWrite p d => Some (p, d) | _ => None end) t.

(** ** The script *)

Section patcher.
Variable file_path : string.
Variables start_marker end_marker new_block : str.

Definition not_found_message (start_idx end_idx : Z) : str :=
  lit "Markers not found! start=" ++ int_str start_idx
    ++ lit ", end=" ++ int_str end_idx.

Definition success_message : str := lit "Successfully patched appointments.js".

Definition splice (content : str) (start_idx end_idx : Z) : str :=
  slice_to content start_idx ++ new_block ++ slice_from content end_idx.

Definition patcher : M unit :=
  content ← read_text file_path;
  let start_idx := find content start_marker in
  let end_idx := find content end_marker in
  (if (start_idx =? -1) || (end_idx =? -1)
   then print (not_found_message start_idx end_idx);; exit 1
   else mret ());;
  let new_content := splice content start_idx end_idx in
  write_text file_path new_content;;
  print success_message.
End patcher.

(** The constants of the script. *)
Module Script.
Definition file_path : string :=
  "c:\Users\usuario\Desktop\pelu-turnos\backend\src\routes\appointments.js".

Definition start_marker : str :=
  lit "// Notificar al estilista si existe mapping user_id".

Definition end_marker : str :=
  lit "// Notificar al cliente por push (si tiene token registrado en customer_app_settings)".

Definition dq : string := String (ascii_of_nat 34) EmptyString.

(** A double-quoted piece of a line. *)
Definition q (s : string) : string := dq +:+ s +:+ dq.

Definition new_block_lines : list string :=
  [
    "      // Notificar al estilista (Internal Notification, WhatsApp, Email)";
    "      try { await pool.query(`ALTER TABLE instructor ADD COLUMN phone_e164 VARCHAR(32) NULL`); } catch {}";
    EmptyString;
    "      const [[inst]] = await pool.query(";
    "        " +:+ q "SELECT id, user_id, phone_e164, name FROM instructor WHERE id=? AND tenant_id=? LIMIT 1" +:+ ",";
    "        [instructorId, tenantId]";
    "      );";
    EmptyString;
    "      if (inst) {";
    "        // 1. Notificación interna (si tiene usuario)";
    "        if (inst.user_id) {";
    "          await createNotification({";
    "            tenantId,";
    "            userId: inst.user_id,";
    "            type: " +:+ q "appointment" +:+ ",";
    "            title: " +:+ q "Te asignaron un nuevo turno" +:+ ",";
    "            message: `${customerLabel} — ${serviceLabel} — Inicio: ${startsAt}`,";
    "            data: { tenantId, appointmentId, instructorId, serviceId, customerId: effectiveCustomerId, startsAt, endsAt: endMySQL }";
    "          });";
    "        }";
    EmptyString;
    "        // 2. WhatsApp (si tiene teléfono)";
    "        if (inst.phone_e164 && sendWhatsAppText) {";
    "          try {";
    "            const whenLabel = fmtLocal(startMySQL.replace(" +:+ q " " +:+ ", " +:+ q "T" +:+ "));";
    "            const cName = c?.name || " +:+ q "Cliente" +:+ ";";
    "            const cPhone = c?.phone || " +:+ q EmptyString +:+ ";";
    "            const cText = cPhone ? `${cName} (${cPhone})` : cName;";
    EmptyString;
    "            const msg = `Hola ${inst.name || " +:+ q "👤" +:+ "}!\n\nNuevo turno asignado:\n` +";
    "                        `• Cliente: ${cText}\n` +";
    "                        `• Servicio: ${serviceLabel}\n` +";
    "                        `• Horario: ${whenLabel}`;";
    "            ";
    "            try {";
    "              await sendWhatsAppText(inst.phone_e164, msg, tenantId);";
    "            } catch (waErr) {";
    "              if (waErr.code === 131047 && sendWhatsAppTemplate) {";
    "                const langs = [" +:+ q "es" +:+ ", " +:+ q "es_AR" +:+ ", " +:+ q "es_419" +:+ "];";
    "                for (const lang of langs) {";
    "                  try {";
    "                    await sendWhatsAppTemplate(";
    "                      inst.phone_e164,";
    "                      " +:+ q "nuevo_turno_profesional" +:+ ",";
    "                      lang,";
    "                      [";
    "                        { type: " +:+ q "body" +:+ ", parameters: [";
    "                          { type: " +:+ q "text" +:+ ", text: inst.name || " +:+ q "Profesional" +:+ " },";
    "                          { type: " +:+ q "text" +:+ ", text: cText },";
    "                          { type: " +:+ q "text" +:+ ", text: serviceLabel },";
    "                          { type: " +:+ q "text" +:+ ", text: whenLabel }";
    "                        ] }";
    "                      ],";
    "                      tenantId";
    "                    );";
    "                    break;";
    "                  } catch {}";
    "                }";
    "              }";
    "            }";
    "          } catch (waSendErr) {";
    "            console.error(" +:+ q "⚠️ [appointments] Error enviando WhatsApp al peluquero:" +:+ ", waSendErr?.message || waSendErr);";
    "          }";
    "        }";
    EmptyString;
    "        // 3. Email (si tiene usuario y email)";
    "        if (inst.user_id) {";
    "          try {";
    "            const [[u]] = await pool.query(";
    "              " +:+ q "SELECT email FROM users WHERE id = ? AND tenant_id = ? LIMIT 1" +:+ ",";
    "              [inst.user_id, tenantId]";
    "            );";
    "            if (u?.email) {";
    "              const { sendEmail } = await import(" +:+ q "../email.js" +:+ ").catch(() => ({ sendEmail: null }));";
    "              if (sendEmail) {";
    "                const whenLabel = fmtLocal(startMySQL.replace(" +:+ q " " +:+ ", " +:+ q "T" +:+ "));";
    "                const cName = c?.name || " +:+ q "Cliente" +:+ ";";
    "                const cPhone = c?.phone || " +:+ q EmptyString +:+ ";";
    "                const cText = cPhone ? `${cName} (${cPhone})` : cName;";
    "                ";
    "                const subject = " +:+ q "Nuevo turno asignado" +:+ ";";
    "                const html = [";
    "                  `<p>Se te asignó un nuevo turno.</p>`,";
    "                  `<p><strong>Cliente:</strong> ${cText}</p>`,";
    "                  `<p><strong>Servicio:</strong> ${serviceLabel}</p>`,";
    "                  `<p><strong>Horario:</strong> ${whenLabel}</p>`";
    "                ].join(" +:+ q EmptyString +:+ ");";
    "                await sendEmail({ to: u.email, subject, html, tenantId });";
    "                console.log(`✅ [appointments] Email enviado al peluquero ${u.email}`);";
    "              }";
    "            }";
    "          } catch (emailErr) {";
    "            console.error(" +:+ q "⚠️ [appointments] Error enviando email al peluquero:" +:+ ", emailErr?.message || emailErr);";
    "          }";
    "        }";
    "      }";
    EmptyString
  ].

Definition new_block : str :=
  lit (String.concat EmptyString ((λ l, l +:+ nl) <$> new_block_lines)).

(** The script with its constants. *)
Definition main : M unit := patcher file_path start_marker end_marker new_block.
End Script.

(** ** The scenario of the specification *)

Definition scenario_text : str :=
  lit ("X" +:+ nl +:+ "START" +:+ nl +:+ "old" +:+ nl +:+ "END" +:+ nl +:+ "Y").

Definition scenario_expected : str :=
  lit ("X" +:+ nl +:+ "NEW" +:+ nl +:+ "END" +:+ nl +:+ "Y").

(** ** Overlapping patterns and repeated runs *)

Section overlap.
Context {A : Type} `{EqDecision A}.
Implicit Types a b : list A.

(** Whether [b] can start [k] places into [a]: what is left of [a] there
    and [b] agree as far as both go. *)
Definition overlaps_at a b (k : nat) : bool :=
  startswith (drop k a) b || startswith b (drop k a).

(** No occurrence of [b] can start inside an occurrence of [a]. *)
Definition never_inside a b : bool :=
  forallb (λ k, negb (overlaps_at a b k)) (seq 0 (length a)).
End overlap.


(** * Properties *)

(** ** Scanning and slicing *)

Section sequence_facts.
Context {A : Type} `{EqDecision A}.
Implicit Types s sub pre post : list A.

Lemma startswith_prefix s sub : startswith s sub = true ↔ sub `prefix_of` s.
Proof.
  revert s. induction sub as [|x sub IH]; intros s; simpl.
  - split; [intros _; apply prefix_nil | reflexivity].
  - destruct s as [|y s].
    + split; [done | intros Hp; by apply prefix_nil_inv in Hp].
    + rewrite andb_true_iff, bool_decide_eq_true, IH. split.
      * intros [-> Hp]. by apply prefix_cons.
      * intros Hp. split; [symmetry; by eapply prefix_cons_inv_1
                          | by eapply prefix_cons_inv_2].
Qed.

Lemma occurs_at_prefix s sub i :
  occurs_at s sub i ↔ (i ≤ length s)%nat ∧ sub `prefix_of` drop i s.
Proof.
  split.
  - intros (pre & post & -> & <-). split.
    + rewrite length_app. lia.
    + rewrite drop_app_length. by exists post.
  - intros [Hi [post Hp]]. exists (take i s), post. split.
    + by rewrite <- Hp, take_drop.
    + rewrite length_take. lia.
Qed.

Lemma occurs_at_zero s sub : occurs_at s sub 0 ↔ sub `prefix_of` s.
Proof. rewrite occurs_at_prefix. simpl. split; [tauto | split; [lia | done]]. Qed.

Lemma occurs_at_succ x s sub i :
  occurs_at (x :: s) sub (S i) ↔ occurs_at s sub i.
Proof. rewrite !occurs_at_prefix. simpl. split; intros [? ?]; split; (lia || done). Qed.

Lemma occurs_at_nil sub i : occurs_at [] sub i → i = 0%nat.
Proof. rewrite occurs_at_prefix. simpl. lia. Qed.

Lemma occurs_at_bound s sub i :
  occurs_at s sub i → (i + length sub ≤ length s)%nat.
Proof. intros (pre & post & -> & <-). rewrite !length_app. lia. Qed.

(** The scan returns [-1] exactly when there is no occurrence, and the
    offset of the first occurrence otherwise. *)
Lemma find_from_spec s sub i :
  (find_from s sub i = -1 ∧ ¬ occurs s sub) ∨
  (∃ k, find_from s sub i = i + Z.of_nat k ∧ first_occurrence s sub k).
Proof.
  revert i. induction s as [|x s IH]; intros i; simpl.
  - destruct (startswith [] sub) eqn:E.
    + right. exists 0%nat. split; [lia |]. split.
      * apply occurs_at_zero. by apply startswith_prefix.
      * intros; lia.
    + left. split; [done |]. intros [j Hj].
      pose proof (occurs_at_nil _ _ Hj) as ->.
      apply occurs_at_zero, startswith_prefix in Hj. congruence.
  - destruct (startswith (x :: s) sub) eqn:E.
    + right. exists 0%nat. split; [lia |]. split.
      * apply occurs_at_zero. by apply startswith_prefix.
      * intros; lia.
    + assert (Hz : ¬ occurs_at (x :: s) sub 0).
      { intros Hj. apply occurs_at_zero, startswith_prefix in Hj. congruence. }
      destruct (IH (i + 1)) as [(Hf & Hn) | (k & Hf & Hk & Hmin)].
      * left. split; [done |]. intros [[|j] Hj]; [done |].
        apply Hn. exists j. by apply occurs_at_succ in Hj.
      * right. exists (S k). split; [lia |]. split.
        -- by apply occurs_at_succ.
        -- intros [|j] Hj; [done |]. apply occurs_at_succ in Hj.
           apply Hmin in Hj. lia.
Qed.

Lemma first_occurrence_unique s sub i j :
  first_occurrence s sub i → first_occurrence s sub j → i = j.
Proof. intros [Hi Hmi] [Hj Hmj]. apply Hmi in Hj. apply Hmj in Hi. lia. Qed.

Lemma find_absent s sub : find s sub = -1 ↔ ¬ occurs s sub.
Proof.
  unfold find. destruct (find_from_spec s sub 0) as [(Hf & Hn) | (k & Hf & Hk)].
  - tauto.
  - split; [lia |]. intros Hn. destruct Hn. exists k. apply Hk.
Qed.

Lemma find_first s sub i :
  find s sub = Z.of_nat i ↔ first_occurrence s sub i.
Proof.
  unfold find. destruct (find_from_spec s sub 0) as [(Hf & Hn) | (k & Hf & Hk)].
  - split; [lia |]. intros [Hi _]. destruct Hn. by exists i.
  - split.
    + intros Hi. assert (i = k) as -> by lia. done.
    + intros Hi. rewrite (first_occurrence_unique _ _ _ _ Hi Hk). lia.
Qed.

Lemma find_range s sub :
  find s sub = -1 ∨ 0 ≤ find s sub ≤ Z.of_nat (length s) - Z.of_nat (length sub).
Proof.
  unfold find. destruct (find_from_spec s sub 0) as [(Hf & _) | (k & Hf & Hk & _)].
  - by left.
  - right. apply occurs_at_bound in Hk. lia.
Qed.

Lemma occurs_first s sub : occurs s sub → ∃ i, first_occurrence s sub i.
Proof.
  intros Ho. destruct (find_range s sub) as [Hf | Hf].
  - by apply find_absent in Hf.
  - exists (Z.to_nat (find s sub)). apply find_first. lia.
Qed.

Lemma slice_to_take s (i : nat) :
  (i ≤ length s)%nat → slice_to s (Z.of_nat i) = take i s.
Proof.
  intros Hi. unfold slice_to, slice_index.
  destruct (Z.ltb_spec (Z.of_nat i) 0); [lia |]. f_equal. lia.
Qed.

Lemma slice_from_drop s (i : nat) :
  (i ≤ length s)%nat → slice_from s (Z.of_nat i) = drop i s.
Proof.
  intros Hi. unfold slice_from, slice_index.
  destruct (Z.ltb_spec (Z.of_nat i) 0); [lia |]. f_equal. lia.
Qed.
End sequence_facts.

Section frame_facts.
Context {A : Type}.
Implicit Types text mid rest : list A.

Lemma spliced_prefix text mid rest (si : nat) :
  (si ≤ length text)%nat →
  take si (take si text ++ mid ++ rest) = take si text.
Proof.
  intros Hsi. rewrite take_app_le by (rewrite length_take; lia).
  rewrite take_take. f_equal. lia.
Qed.

Lemma spliced_suffix text mid rest (si : nat) :
  (si ≤ length text)%nat →
  drop (si + length mid) (take si text ++ mid ++ rest) = rest.
Proof.
  intros Hsi. rewrite app_assoc.
  replace (si + length mid)%nat with (length (take si text ++ mid)).
  - apply drop_app_length.
  - rewrite length_app, length_take. lia.
Qed.

Lemma spliced_length text mid (si ei : nat) :
  (si ≤ length text)%nat → (ei ≤ length text)%nat →
  length (take si text ++ mid ++ drop ei text)
  = (si + length mid + (length text - ei))%nat.
Proof.
  intros Hsi Hei. rewrite !length_app, length_take, length_drop. lia.
Qed.
End frame_facts.

Lemma find_present {A} `{EqDecision A} (s sub : list A) :
  find s sub ≠ -1 ↔ occurs s sub.
Proof.
  split.
  - intros Hf. destruct (find_range s sub) as [? | Hr]; [done |].
    exists (Z.to_nat (find s sub)). apply (find_first s sub). lia.
  - intros Ho Hf. by apply find_absent in Hf.
Qed.

Lemma occurs_once_from_scan {A} `{EqDecision A} (s m : list A) (i : nat) :
  find s m = Z.of_nat i → find (drop (S i) s) m = -1 → occurs_once_at s m i.
Proof.
  intros Hfirst Hrest. apply find_first in Hfirst as [Hi Hmin].
  apply find_absent in Hrest. split; [exact Hi |].
  intros j Hj. pose proof (Hmin j Hj) as Hle.
  destruct (decide (j = i)) as [-> | Hne]; [done |].
  exfalso. apply Hrest. exists (j - S i)%nat.
  apply occurs_at_prefix in Hj as [Hjl Hjp].
  apply occurs_at_prefix. rewrite length_drop, drop_drop.
  replace (S i + (j - S i))%nat with j by lia. split; [lia | done].
Qed.

(** The embedding on small inputs, as the interpreter answers them. *)
Example find_lowest : find (lit "abcabc") (lit "bc") = 1.
Proof. reflexivity. Qed.

Example find_none : find (lit "abc") (lit "x") = -1.
Proof. reflexivity. Qed.

Example find_empty : find (lit "abc") (lit EmptyString) = 0.
Proof. reflexivity. Qed.

Example slice_to_negative : slice_to (lit "abcde") (-2) = lit "abc".
Proof. reflexivity. Qed.

Example slice_from_negative : slice_from (lit "abcde") (-2) = lit "de".
Proof. reflexivity. Qed.

Example slice_to_clamped : slice_to (lit "abc") 10 = lit "abc".
Proof. reflexivity. Qed.

Example int_str_minus_one : int_str (-1) = lit "-1".
Proof. reflexivity. Qed.

Example lit_code_points : lit "ó—" = [243%N; 8212%N].
Proof. reflexivity. Qed.

(** Goals about a scan of a concrete text, settled by running the scan. *)
Ltac by_scan :=
  first [ apply find_first | apply find_absent | apply find_present
        | apply occurs_once_from_scan ];
  vm_compute; first [ reflexivity | discriminate ].

(** ** Occurrences in a spliced text *)

Section boundary.
Context {A : Type} `{EqDecision A}.
Implicit Types s sub pre mid post m : list A.

Lemma endswith_suffix s sub : endswith s sub = true ↔ sub `suffix_of` s.
Proof.
  unfold endswith. rewrite startswith_prefix.
  symmetry. apply suffix_prefix_reverse.
Qed.

Lemma clean_boundary_spec mid m k :
  clean_boundary mid m = true →
  (0 < k < length m)%nat →
  ¬ drop k m `prefix_of` mid ∧ ¬ take k m `suffix_of` mid.
Proof.
  unfold clean_boundary. rewrite forallb_forall. intros Hall Hk.
  specialize (Hall k). rewrite in_seq in Hall.
  apply andb_true_iff in Hall as [H1 H2]; [| lia].
  apply negb_true_iff in H1, H2. split.
  - intros Hp. apply startswith_prefix in Hp. congruence.
  - intros Hp. apply endswith_suffix in Hp. congruence.
Qed.

Lemma app_prefix_l (a b m x : list A) :
  a ++ b = m ++ x → (length m ≤ length a)%nat → m `prefix_of` a.
Proof.
  intros Heq Hlen. exists (drop (length m) a).
  rewrite <- (take_drop (length m) a) at 1. f_equal.
  rewrite <- (take_app_le a b) by lia. rewrite Heq.
  apply take_app_length.
Qed.

(** An occurrence of [m] in [pre ++ mid ++ post] lies wholly in [pre] or
    wholly in [post], provided [mid] neither holds [m] nor shares a
    boundary piece with it. *)
Lemma occurs_at_spliced pre mid post m j :
  (length m ≤ length mid)%nat →
  clean_boundary mid m = true →
  ¬ occurs mid m →
  occurs_at (pre ++ mid ++ post) m j →
  occurs_at pre m j
  ∨ ∃ k, j = (length pre + length mid + k)%nat ∧ occurs_at post m k.
Proof.
  intros Hlen Hcb Hno Hocc.
  apply occurs_at_prefix in Hocc as [Hj [x Hx]].
  rewrite !length_app in Hj.
  destruct (decide (j + length m ≤ length pre)%nat) as [HA | HA].
  { left. apply occurs_at_prefix. split; [lia |].
    rewrite drop_app_le in Hx by lia.
    apply (app_prefix_l _ _ _ _ Hx). rewrite length_drop. lia. }
  destruct (decide (j < length pre)%nat) as [HB | HB].
  { exfalso. rewrite drop_app_le in Hx by lia.
    apply (f_equal (drop (length pre - j))) in Hx.
    rewrite drop_app_length' in Hx by (rewrite length_drop; lia).
    rewrite drop_app_le in Hx by lia.
    destruct (clean_boundary_spec mid m (length pre - j) Hcb) as [Hc _];
      [lia |].
    apply Hc, (app_prefix_l _ _ _ _ Hx). rewrite length_drop. lia. }
  rewrite drop_app_ge in Hx by lia.
  destruct (decide (j - length pre + length m ≤ length mid)%nat) as [HC | HC].
  { exfalso. apply Hno. exists (j - length pre)%nat.
    apply occurs_at_prefix. split; [lia |].
    rewrite drop_app_le in Hx by lia.
    apply (app_prefix_l _ _ _ _ Hx). rewrite length_drop. lia. }
  destruct (decide (j - length pre < length mid)%nat) as [HD | HD].
  { exfalso. rewrite drop_app_le in Hx by lia.
    apply (f_equal (take (length mid - (j - length pre)))) in Hx.
    rewrite take_app_length' in Hx by (rewrite length_drop; lia).
    rewrite take_app_le in Hx by lia.
    destruct (clean_boundary_spec mid m (length mid - (j - length pre)) Hcb)
      as [_ Hc]; [lia |].
    apply Hc. rewrite <- Hx. apply suffix_drop. }
  right. exists (j - length pre - length mid)%nat. split; [lia |].
  rewrite drop_app_ge in Hx by lia.
  apply occurs_at_prefix. split; [lia |]. by exists x.
Qed.

(** Occurrences in a prefix or a suffix are occurrences in the text. *)
Lemma occurs_at_take s m (n j : nat) :
  occurs_at (take n s) m j → occurs_at s m j ∧ (j + length m ≤ n)%nat.
Proof.
  intros Ho. pose proof (occurs_at_bound _ _ _ Ho) as Hb.
  rewrite length_take in Hb. split; [| lia].
  destruct Ho as (a & b & Heq & Hlen).
  exists a, (b ++ drop n s). split; [| done].
  rewrite <- (take_drop n s) at 1. rewrite Heq. by rewrite <- !app_assoc.
Qed.

Lemma occurs_at_drop s m (n k : nat) :
  (n ≤ length s)%nat → occurs_at (drop n s) m k → occurs_at s m (n + k).
Proof.
  intros Hn (a & b & Heq & Hlen).
  exists (take n s ++ a), b. split.
  - rewrite <- (take_drop n s) at 1. rewrite Heq. by rewrite <- !app_assoc.
  - rewrite length_app, length_take. lia.
Qed.
End boundary.

(** ** Running the script *)

Section runs.
Variable file_path : string.
Variables start_marker end_marker new_block : str.

#[local] Abbreviation run :=
  (patcher file_path start_marker end_marker new_block).

Lemma run_missing_file w :
  files w !! file_path = None →
  run w = (Raised (FileNotFoundError file_path), w).
Proof.
  intros Hf. unfold patcher, mbind, M_bind, read_text. by rewrite Hf.
Qed.

Lemma run_not_found w text :
  files w !! file_path = Some text →
  find text start_marker = -1 ∨ find text end_marker = -1 →
  run w =
    (SystemExit 1,
     {| files := files w;
        trace := trace w ++
          [EvRead file_path;
           EvPrint (not_found_message (find text start_marker)
                                      (find text end_marker))] |}).
Proof.
  intros Hf Hm. unfold patcher, mbind, M_bind, read_text. rewrite Hf.
  assert ((find text start_marker =? -1) || (find text end_marker =? -1) = true)
    as ->.
  { apply orb_true_iff. destruct Hm as [Hm | Hm]; [left | right]; lia. }
  unfold print, exit, emit. simpl. by rewrite <- app_assoc.
Qed.

Lemma run_found w text :
  files w !! file_path = Some text →
  find text start_marker ≠ -1 → find text end_marker ≠ -1 →
  let out := splice new_block text (find text start_marker)
               (find text end_marker) in
  run w =
    (Ok (),
     {| files := <[file_path := out]> (files w);
        trace := trace w ++
          [EvRead file_path; EvWrite file_path out;
           EvPrint success_message] |}).
Proof.
  intros Hf Hs He out. unfold patcher, mbind, M_bind, read_text.
  rewrite Hf.
  assert ((find text start_marker =? -1) || (find text end_marker =? -1) = false)
    as ->.
  { apply orb_false_iff. lia. }
  unfold mret, M_ret, write_text, print, emit. simpl.
  by rewrite <- !app_assoc.
Qed.

(** The splice at the offsets of two first occurrences. *)
Lemma splice_first text si ei :
  first_occurrence text start_marker si →
  first_occurrence text end_marker ei →
  splice new_block text (find text start_marker) (find text end_marker)
  = take si text ++ new_block ++ drop ei text.
Proof.
  intros Hs He.
  pose proof (occurs_at_bound _ _ _ (proj1 Hs)).
  pose proof (occurs_at_bound _ _ _ (proj1 He)).
  apply find_first in Hs, He. unfold splice. rewrite Hs, He.
  rewrite slice_to_take, slice_from_drop by lia. done.
Qed.

Lemma run_patched w text si ei :
  files w !! file_path = Some text →
  first_occurrence text start_marker si →
  first_occurrence text end_marker ei →
  let out := take si text ++ new_block ++ drop ei text in
  run w =
    (Ok (),
     {| files := <[file_path := out]> (files w);
        trace := trace w ++
          [EvRead file_path; EvWrite file_path out;
           EvPrint success_message] |}).
Proof.
  intros Hf Hs He out.
  rewrite (run_found w text Hf).
  - by rewrite (splice_first text si ei Hs He).
  - apply find_first in Hs. lia.
  - apply find_first in He. lia.
Qed.
End runs.

(** ** Formatting facts *)

Lemma digits_one_line d : newline ∉ digits d.
Proof.
  induction d; simpl; [apply not_elem_of_nil | ..];
    (apply not_elem_of_cons; split; [discriminate | assumption]).
Qed.

Lemma int_str_one_line z : newline ∉ int_str z.
Proof.
  unfold int_str. destruct (Z.to_int z).
  - apply digits_one_line.
  - apply not_elem_of_cons; split; [discriminate | apply digits_one_line].
Qed.

Lemma not_found_message_eq si ei :
  not_found_message si ei
  = lit "Markers not found! start=" ++ int_str si ++ lit ", end=" ++ int_str ei.
Proof. reflexivity. Qed.

Lemma not_found_message_one_line si ei : newline ∉ not_found_message si ei.
Proof.
  unfold not_found_message.
  repeat (apply not_elem_of_app; split); try apply int_str_one_line.
  - apply (bool_decide_unpack _). vm_compute. exact I.
  - apply (bool_decide_unpack _). vm_compute. exact I.
Qed.

(** Facts about the literals of the script, by evaluation. *)
Lemma new_block_lacks_start : ¬ occurs Script.new_block Script.start_marker.
Proof. apply find_absent. vm_compute. reflexivity. Qed.

Lemma new_block_lacks_end : ¬ occurs Script.new_block Script.end_marker.
Proof. apply find_absent. vm_compute. reflexivity. Qed.

Lemma new_block_boundary_start :
  clean_boundary Script.new_block Script.start_marker = true.
Proof. vm_compute. reflexivity. Qed.

Lemma new_block_boundary_end :
  clean_boundary Script.new_block Script.end_marker = true.
Proof. vm_compute. reflexivity. Qed.

Lemma new_block_length : length Script.new_block = 4094%nat.
Proof. vm_compute. reflexivity. Qed.

Lemma start_marker_length : length Script.start_marker = 51%nat.
Proof. vm_compute. reflexivity. Qed.

Lemma end_marker_length : length Script.end_marker = 85%nat.
Proof. vm_compute. reflexivity. Qed.

Lemma marker_in_patched (m pre post : str) (j : nat) :
  m = Script.start_marker ∨ m = Script.end_marker →
  occurs_at (pre ++ Script.new_block ++ post) m j →
  occurs_at pre m j
  ∨ ∃ k, j = (length pre + length Script.new_block + k)%nat ∧ occurs_at post m k.
Proof.
  intros [-> | ->]; apply occurs_at_spliced.
  - rewrite new_block_length, start_marker_length. lia.
  - apply new_block_boundary_start.
  - apply new_block_lacks_start.
  - rewrite new_block_length, end_marker_length. lia.
  - apply new_block_boundary_end.
  - apply new_block_lacks_end.
Qed.

(** ** The script and its specification *)

(** C1.  Whenever both markers occur in the document, the script ends
    normally and leaves [text[0:si] + replacement + text[ei:]] in the file,
    where [si] and [ei] are the offsets of the first occurrences of the
    start and the end marker; the end marker itself is still there, right
    after the replacement. *)
Theorem patched_output_is_splice
    (file_path : string) (start_marker end_marker new_block : str)
    (w : world) (text : str) :
  files w !! file_path = Some text →
  occurs text start_marker →
  occurs text end_marker →
  ∃ si ei,
    first_occurrence text start_marker si
    ∧ first_occurrence text end_marker ei
    ∧ let out := take si text ++ new_block ++ drop ei text in
      patcher file_path start_marker end_marker new_block w =
        (Ok (),
         {| files := <[file_path := out]> (files w);
            trace := trace w ++
              [EvRead file_path; EvWrite file_path out;
               EvPrint success_message] |})
      ∧ out = take si text ++ new_block ++ end_marker
                ++ drop (ei + length end_marker) text.
Proof.
  intros Hf Hos Hoe.
  destruct (occurs_first _ _ Hos) as [si Hs].
  destruct (occurs_first _ _ Hoe) as [ei He].
  exists si, ei. split; [exact Hs |]. split; [exact He |].
  intros out. split.
  - by apply run_patched.
  - unfold out. do 2 f_equal.
    destruct He as [(pre & post & -> & <-) _].
    rewrite drop_app_length. rewrite <- drop_drop, drop_app_length.
    by rewrite drop_app_length.
Qed.

(** The scenario of the specification: markers [START] and [END],
    replacement [NEW] plus a line break. *)
Lemma patched_output_scenario :
  let w := {| files := {[ "appointments.js" := scenario_text ]}; trace := [] |} in
  files w !! "appointments.js" = Some scenario_text
  ∧ occurs scenario_text (lit "START")
  ∧ occurs scenario_text (lit "END")
  ∧ patcher "appointments.js" (lit "START") (lit "END") (lit ("NEW" +:+ nl)) w =
      (Ok (),
       {| files := <["appointments.js" := scenario_expected]> (files w);
          trace := [EvRead "appointments.js";
                    EvWrite "appointments.js" scenario_expected;
                    EvPrint success_message] |}).
Proof.
  intros w.
  assert (Hf : files w !! "appointments.js" = Some scenario_text)
    by apply lookup_singleton_eq.
  assert (Hs : first_occurrence scenario_text (lit "START") 2) by by_scan.
  assert (He : first_occurrence scenario_text (lit "END") 12) by by_scan.
  assert (Hos : occurs scenario_text (lit "START")) by by_scan.
  assert (Hoe : occurs scenario_text (lit "END")) by by_scan.
  split; [exact Hf |]. split; [exact Hos |]. split; [exact Hoe |].
  destruct (patched_output_is_splice "appointments.js" (lit "START")
              (lit "END") (lit ("NEW" +:+ nl)) w scenario_text Hf Hos Hoe)
    as (si & ei & Hs' & He' & Hrun & _).
  pose proof (first_occurrence_unique _ _ _ _ Hs' Hs) as ->.
  pose proof (first_occurrence_unique _ _ _ _ He' He) as ->.
  exact Hrun.
Defined.

(** C2.  When at least one marker does not occur, the script writes
    nothing, prints a single line that reports the offset found for each
    marker ([-1] for an absent one) and exits with status 1. *)
Theorem missing_marker_aborts
    (file_path : string) (start_marker end_marker new_block : str)
    (w : world) (text : str) :
  files w !! file_path = Some text →
  ¬ occurs text start_marker ∨ ¬ occurs text end_marker →
  let line := lit "Markers not found! start=" ++ int_str (find text start_marker)
                ++ lit ", end=" ++ int_str (find text end_marker) in
  patcher file_path start_marker end_marker new_block w =
    (SystemExit 1,
     {| files := files w;
        trace := trace w ++ [EvRead file_path; EvPrint line] |})
  ∧ exit_status (SystemExit 1 : result unit) ≠ 0
  ∧ writes [EvRead file_path; EvPrint line] = []
  ∧ printed [EvRead file_path; EvPrint line] = [line]
  ∧ (newline ∉ line)
  ∧ (¬ occurs text start_marker → int_str (find text start_marker) = lit "-1")
  ∧ (¬ occurs text end_marker → int_str (find text end_marker) = lit "-1")
  ∧ (∀ i, first_occurrence text start_marker i →
          find text start_marker = Z.of_nat i)
  ∧ (∀ i, first_occurrence text end_marker i →
          find text end_marker = Z.of_nat i).
Proof.
  intros Hf Hm line. unfold line. rewrite <- not_found_message_eq. split.
  { apply run_not_found; [exact Hf |].
    destruct Hm as [Hm | Hm]; [left | right]; by apply find_absent. }
  split; [discriminate |]. split; [reflexivity |]. split; [reflexivity |].
  split; [apply not_found_message_one_line |].
  split; [intros Hn; apply find_absent in Hn; by rewrite Hn |].
  split; [intros Hn; apply find_absent in Hn; by rewrite Hn |].
  split; intros i Hi; by apply find_first.
Qed.

(** A document that holds the end marker but not the start marker. *)
Lemma missing_marker_example :
  let text := lit "x" ++ Script.end_marker in
  let w := {| files := {[ Script.file_path := text ]}; trace := [] |} in
  files w !! Script.file_path = Some text
  ∧ (¬ occurs text Script.start_marker ∨ ¬ occurs text Script.end_marker)
  ∧ Script.main w =
      (SystemExit 1,
       {| files := files w;
          trace := [EvRead Script.file_path;
                    EvPrint (lit "Markers not found! start=-1, end=1")] |}).
Proof.
  intros text w.
  assert (Hf : files w !! Script.file_path = Some text)
    by apply lookup_singleton_eq.
  assert (Es : find text Script.start_marker = -1) by (vm_compute; reflexivity).
  assert (Ee : find text Script.end_marker = 1) by (vm_compute; reflexivity).
  assert (Hm : ¬ occurs text Script.start_marker ∨ ¬ occurs text Script.end_marker)
    by (left; by apply find_absent).
  split; [exact Hf |]. split; [exact Hm |].
  pose proof (proj1 (missing_marker_aborts Script.file_path Script.start_marker
                       Script.end_marker Script.new_block w text Hf Hm)) as H.
  rewrite Es, Ee in H. exact H.
Defined.

(** C3.  Each offset is the first occurrence of its own marker, whatever
    the other marker does and however often the marker occurs: any other
    occurrence [j] of the start marker lies further right and changes
    nothing.  The text before the first start marker is kept, the span from
    there to the first end marker is replaced, and the only line printed is
    the confirmation. *)
Theorem first_occurrence_only
    (file_path : string) (start_marker end_marker new_block : str)
    (w : world) (text : str) (si ei j : nat) :
  files w !! file_path = Some text →
  first_occurrence text start_marker si →
  first_occurrence text end_marker ei →
  occurs_at text start_marker j →
  find text start_marker = Z.of_nat si
  ∧ find text end_marker = Z.of_nat ei
  ∧ (si ≤ j)%nat
  ∧ let out := take si text ++ new_block ++ drop ei text in
    let events := [EvRead file_path; EvWrite file_path out;
                   EvPrint success_message] in
    patcher file_path start_marker end_marker new_block w =
      (Ok (), {| files := <[file_path := out]> (files w);
                 trace := trace w ++ events |})
    ∧ take si out = take si text
    ∧ drop (si + length new_block) out = drop ei text
    ∧ printed events = [success_message].
Proof.
  intros Hf Hs He Hj.
  pose proof (occurs_at_bound _ _ _ (proj1 Hs)) as Hb.
  split; [by apply find_first |]. split; [by apply find_first |].
  split; [by apply Hs |]. simpl. split; [by apply run_patched |].
  split; [apply spliced_prefix; lia |].
  split; [apply spliced_suffix; lia | done].
Qed.

(** The start marker twice, then the end marker. *)
Lemma first_occurrence_only_example :
  let text := lit "a" ++ Script.start_marker ++ lit "b" ++ Script.start_marker
                ++ lit "c" ++ Script.end_marker ++ lit "d" in
  let w := {| files := {[ Script.file_path := text ]}; trace := [] |} in
  let out := lit "a" ++ Script.new_block ++ Script.end_marker ++ lit "d" in
  files w !! Script.file_path = Some text
  ∧ first_occurrence text Script.start_marker 1
  ∧ first_occurrence text Script.end_marker 105
  ∧ occurs_at text Script.start_marker 53
  ∧ Script.main w =
      (Ok (), {| files := <[Script.file_path := out]> (files w);
                 trace := [EvRead Script.file_path;
                           EvWrite Script.file_path out;
                           EvPrint success_message] |}).
Proof.
  intros text w out.
  assert (Hf : files w !! Script.file_path = Some text)
    by apply lookup_singleton_eq.
  assert (Hs : first_occurrence text Script.start_marker 1)
    by by_scan.
  assert (He : first_occurrence text Script.end_marker 105)
    by by_scan.
  assert (Hj : occurs_at text Script.start_marker 53).
  { exists (lit "a" ++ Script.start_marker ++ lit "b"),
      (lit "c" ++ Script.end_marker ++ lit "d").
    split; [by rewrite <- !app_assoc | vm_compute; reflexivity]. }
  split; [exact Hf |]. split; [exact Hs |]. split; [exact He |].
  split; [exact Hj |].
  destruct (first_occurrence_only Script.file_path Script.start_marker
              Script.end_marker Script.new_block w text 1 105 53 Hf Hs He Hj)
    as (_ & _ & _ & Hrun & _).
  unfold Script.main. rewrite Hrun.
  assert (Hout : take 1 text ++ Script.new_block ++ drop 105 text = out)
    by (vm_compute; reflexivity).
  rewrite Hout. reflexivity.
Defined.

(** C4.  When the start marker occurs exactly once, before the first end
    marker, the first run patches the file and a second run on the patched
    file finds no start marker: it reports [start=-1], exits with status 1
    and leaves the once-patched text in place. *)
Theorem second_run_fails (w : world) (text : str) (si ei : nat) :
  files w !! Script.file_path = Some text →
  occurs_once_at text Script.start_marker si →
  first_occurrence text Script.end_marker ei →
  (si < ei)%nat →
  let out := take si text ++ Script.new_block ++ drop ei text in
  ∃ w1 w2,
    Script.main w = (Ok (), w1)
    ∧ files w1 !! Script.file_path = Some out
    ∧ ¬ occurs out Script.start_marker
    ∧ Script.main w1 = (SystemExit 1, w2)
    ∧ exit_status (SystemExit 1 : result unit) ≠ 0
    ∧ files w2 = files w1
    ∧ trace w2 = trace w1 ++
        [EvRead Script.file_path;
         EvPrint (not_found_message (-1)
                    (Z.of_nat (si + length Script.new_block)))].
Proof.
  intros Hf [Hs Hone] He Hlt out.
  assert (Hfirst : first_occurrence text Script.start_marker si).
  { split; [exact Hs |]. intros j Hj. apply Hone in Hj. lia. }
  pose proof (occurs_at_bound _ _ _ Hs) as Hbs.
  pose proof (occurs_at_bound _ _ _ (proj1 He)) as Hbe.
  assert (Hlen : length (take si text) = si) by (rewrite length_take; lia).
  assert (Hno : ¬ occurs out Script.start_marker).
  { intros [j Hj].
    destruct (marker_in_patched _ _ _ j (or_introl eq_refl) Hj)
      as [Hpre | (k & -> & Hk)].
    - apply occurs_at_take in Hpre as [Hin Hb]. apply Hone in Hin.
      rewrite start_marker_length in Hb. lia.
    - apply occurs_at_drop in Hk; [| lia]. apply Hone in Hk. lia. }
  assert (Hend : first_occurrence out Script.end_marker
                   (si + length Script.new_block)).
  { split.
    - apply occurs_at_prefix. split.
      + unfold out. rewrite !length_app, length_take. lia.
      + unfold out. rewrite spliced_suffix by lia.
        destruct He as [He _]. apply occurs_at_prefix in He. apply He.
    - intros j Hj.
      destruct (marker_in_patched _ _ _ j (or_intror eq_refl) Hj)
        as [Hpre | (k & -> & Hk)]; [| lia].
      apply occurs_at_take in Hpre as [Hin Hb]. apply He in Hin. lia. }
  apply find_absent in Hno as Hns. apply find_first in Hend.
  pose (w1 := {| files := <[Script.file_path := out]> (files w);
                 trace := trace w ++
                   [EvRead Script.file_path; EvWrite Script.file_path out;
                    EvPrint success_message] |}).
  assert (Hf1 : files w1 !! Script.file_path = Some out)
    by apply lookup_insert_eq.
  pose proof (run_not_found Script.file_path Script.start_marker
                Script.end_marker Script.new_block w1 out Hf1
                (or_introl Hns)) as Hrun2.
  rewrite Hns, Hend in Hrun2.
  exists w1. eexists. unfold Script.main.
  split; [exact (run_patched _ _ _ _ w text si ei Hf Hfirst He) |].
  split; [exact Hf1 |]. split; [exact Hno |].
  split; [exact Hrun2 |].
  split; [discriminate |]. split; reflexivity.
Qed.

Lemma second_run_example :
  let text := lit "a" ++ Script.start_marker ++ lit "b" ++ Script.end_marker
                ++ lit "c" in
  let w := {| files := {[ Script.file_path := text ]}; trace := [] |} in
  files w !! Script.file_path = Some text
  ∧ occurs_once_at text Script.start_marker 1
  ∧ first_occurrence text Script.end_marker 53
  ∧ (1 < 53)%nat
  ∧ ∃ w1 w2, Script.main w = (Ok (), w1)
             ∧ Script.main w1 = (SystemExit 1, w2)
             ∧ files w2 = files w1.
Proof.
  intros text w.
  assert (Hf : files w !! Script.file_path = Some text)
    by apply lookup_singleton_eq.
  assert (Hs : occurs_once_at text Script.start_marker 1)
    by by_scan.
  assert (He : first_occurrence text Script.end_marker 53)
    by by_scan.
  assert (Hlt : (1 < 53)%nat) by lia.
  split; [exact Hf |]. split; [exact Hs |]. split; [exact He |].
  split; [exact Hlt |].
  destruct (second_run_fails w text 1 53 Hf Hs He Hlt)
    as (w1 & w2 & H1 & _ & _ & H2 & _ & H3 & _).
  exists w1, w2. split; [exact H1 |]. split; [exact H2 | exact H3].
Defined.

(** C5.  The order of the two offsets is not checked: when the first end
    marker lies before the first start marker the script still splices at
    the raw offsets, writes the file and ends normally. *)
Theorem inverted_bounds_not_checked
    (file_path : string) (start_marker end_marker new_block : str)
    (w : world) (text : str) (si ei : nat) :
  files w !! file_path = Some text →
  first_occurrence text start_marker si →
  first_occurrence text end_marker ei →
  (ei < si)%nat →
  let out := take si text ++ new_block ++ drop ei text in
  patcher file_path start_marker end_marker new_block w =
    (Ok (),
     {| files := <[file_path := out]> (files w);
        trace := trace w ++ [EvRead file_path; EvWrite file_path out;
                             EvPrint success_message] |})
  ∧ exit_status (Ok ()) = 0
  ∧ length out = (length text + length new_block + (si - ei))%nat.
Proof.
  intros Hf Hs He Hlt out. split; [by apply run_patched |].
  split; [reflexivity |]. unfold out.
  pose proof (occurs_at_bound _ _ _ (proj1 Hs)).
  pose proof (occurs_at_bound _ _ _ (proj1 He)).
  rewrite spliced_length by lia. lia.
Qed.

(** The end marker directly followed by the start marker. *)
Lemma inverted_bounds_example :
  let text := Script.end_marker ++ Script.start_marker in
  let w := {| files := {[ Script.file_path := text ]}; trace := [] |} in
  let out := Script.end_marker ++ Script.new_block ++ text in
  files w !! Script.file_path = Some text
  ∧ first_occurrence text Script.start_marker 85
  ∧ first_occurrence text Script.end_marker 0
  ∧ (0 < 85)%nat
  ∧ Script.main w =
      (Ok (),
       {| files := <[Script.file_path := out]> (files w);
          trace := [EvRead Script.file_path; EvWrite Script.file_path out;
                    EvPrint success_message] |}).
Proof.
  intros text w out.
  assert (Hf : files w !! Script.file_path = Some text)
    by apply lookup_singleton_eq.
  assert (Hs : first_occurrence text Script.start_marker 85)
    by by_scan.
  assert (He : first_occurrence text Script.end_marker 0)
    by by_scan.
  assert (Hlt : (0 < 85)%nat) by lia.
  split; [exact Hf |]. split; [exact Hs |]. split; [exact He |].
  split; [exact Hlt |].
  pose proof (proj1 (inverted_bounds_not_checked Script.file_path
                       Script.start_marker Script.end_marker Script.new_block
                       w text 85 0 Hf Hs He Hlt)) as H.
  assert (Hout : take 85 text ++ Script.new_block ++ drop 0 text = out)
    by (unfold text, out; rewrite take_app_length'; [done | vm_compute; reflexivity]).
  rewrite Hout in H. exact H.
Defined.

(** C6.  Every run ends in one of two ways and no other.  Patched:
    reached exactly when both markers are found in the document; the file
    is written, the confirmation is printed, status 0.  Aborted: a marker is
    not found; the status is not 0 and nothing is written (with the
    document in hand this is [exit(1)] after the diagnostic; a file that
    cannot be read ends the run even earlier, by an uncaught exception).  A
    write happens only when both markers were found, and only after the
    read that produced the offsets. *)
Theorem two_terminal_outcomes
    (file_path : string) (start_marker end_marker new_block : str)
    (w : world) :
  let found := ∃ text, files w !! file_path = Some text
                       ∧ occurs text start_marker ∧ occurs text end_marker in
  ∃ r w' events,
    patcher file_path start_marker end_marker new_block w = (r, w')
    ∧ trace w' = trace w ++ events
    ∧ ((found ∧ r = Ok () ∧ exit_status r = 0
        ∧ ∃ out, files w' = <[file_path := out]> (files w)
                 ∧ events = [EvRead file_path; EvWrite file_path out;
                             EvPrint success_message])
       ∨ (¬ found ∧ exit_status r ≠ 0
          ∧ files w' = files w
          ∧ writes events = []
          ∧ (is_Some (files w !! file_path) →
             r = SystemExit 1
             ∧ ∃ line, events = [EvRead file_path; EvPrint line])))
    ∧ (r = Ok () ↔ found)
    ∧ (∀ before path data after,
         events = before ++ EvWrite path data :: after →
         found ∧ EvRead file_path ∈ before).
Proof.
  intros found.
  destruct (files w !! file_path) as [text |] eqn:Hf.
  2:{ (* the file cannot be read *)
    assert (Hnot : ¬ found) by (intros (text & Ht & _); discriminate).
    exists (Raised (FileNotFoundError file_path)), w, [].
    split; [by apply run_missing_file |].
    split; [by rewrite app_nil_r |]. split; [| split].
    - right. split; [exact Hnot |]. split; [discriminate |].
      split; [reflexivity |]. split; [reflexivity |].
      intros [? ?]; discriminate.
    - split; [discriminate | intros Hfound; by destruct Hnot].
    - intros before path data after Hev.
      destruct before; discriminate. }
  destruct (decide (find text start_marker = -1)) as [Hs | Hs];
    [| destruct (decide (find text end_marker = -1)) as [He | He]].
  3:{ (* both found *)
    assert (Hfound : found).
    { exists text. split; [reflexivity |]. split; by apply find_present. }
    eexists _, _, _. split; [by apply run_found |].
    split; [reflexivity |]. split; [| split].
    - left. split; [exact Hfound |]. split; [reflexivity |].
      split; [reflexivity |]. eexists. split; reflexivity.
    - split; [intros _; exact Hfound | reflexivity].
    - intros before path data after Hev. split; [exact Hfound |].
      destruct before as [| e1 [| e2 [| e3 [| e4 before]]]];
        simplify_eq/=. apply list_elem_of_here. }
  all: assert (Hnot : ¬ found)
    by (intros (text' & Ht & Ho1 & Ho2); simplify_eq;
        apply find_present in Ho1, Ho2; done).
  all: eexists _, _, _; split;
    [apply run_not_found; [exact Hf | auto] |].
  all: split; [reflexivity |]; split; [| split].
  all: try (right; split; [exact Hnot |]; split; [discriminate |];
            split; [reflexivity |]; split; [reflexivity |];
            intros _; split; [reflexivity |]; eexists; reflexivity).
  all: try (split; [discriminate | intros Hfound; by destruct Hnot]).
  all: intros before path data after Hev;
    destruct before as [| e1 [| e2 [| e3 before]]]; simplify_eq/=.
Qed.

(** Three runs: a document with both markers, one with the start marker
    only, and a store without the file. *)
Lemma two_terminal_outcomes_example :
  let both := Script.start_marker ++ lit " old " ++ Script.end_marker in
  let w_both := {| files := {[ Script.file_path := both ]}; trace := [] |} in
  let w_none := {| files := ∅; trace := [] |} in
  (∃ w', Script.main w_both = (Ok (), w'))
  ∧ (∃ r w', Script.main w_none = (r, w') ∧ exit_status r ≠ 0
             ∧ files w' = files w_none).
Proof.
  intros both w_both w_none. split.
  - destruct (two_terminal_outcomes Script.file_path Script.start_marker
                Script.end_marker Script.new_block w_both)
      as (r & w' & events & Hrun & _ & _ & Hiff & _).
    exists w'. unfold Script.main. rewrite Hrun. f_equal.
    apply Hiff. exists both. split; [apply lookup_singleton_eq |].
    split; apply find_present; vm_compute; discriminate.
  - destruct (two_terminal_outcomes Script.file_path Script.start_marker
                Script.end_marker Script.new_block w_none)
      as (r & w' & events & Hrun & _ & [(Hfound & _) | (_ & Hst & Hfs & _)] & _).
    + destruct Hfound as (text & Ht & _). discriminate.
    + exists r, w'. split; [exact Hrun |]. split; [exact Hst | exact Hfs].
Defined.

(** C7.  Frame of a successful run: the output starts with [text[0:si]]
    and ends with [text[ei:]], so the end marker stands in the output at
    offset [si + len(replacement)]; every other file is left alone. *)
Theorem splice_frame
    (file_path : string) (start_marker end_marker new_block : str)
    (w : world) (text : str) (si ei : nat) :
  files w !! file_path = Some text →
  first_occurrence text start_marker si →
  first_occurrence text end_marker ei →
  ∃ out,
    files (patcher file_path start_marker end_marker new_block w).2
      !! file_path = Some out
    ∧ take si out = take si text
    ∧ drop (si + length new_block) out = drop ei text
    ∧ occurs_at out end_marker (si + length new_block)
    ∧ ∀ other, other ≠ file_path →
        files (patcher file_path start_marker end_marker new_block w).2
          !! other = files w !! other.
Proof.
  intros Hf Hs He.
  pose proof (occurs_at_bound _ _ _ (proj1 Hs)) as Hb.
  exists (take si text ++ new_block ++ drop ei text).
  rewrite (run_patched _ _ _ _ w text si ei Hf Hs He). cbn [snd files].
  split; [apply lookup_insert_eq |].
  split; [apply spliced_prefix; lia |].
  split; [apply spliced_suffix; lia |].
  split.
  - apply occurs_at_prefix. split.
    + rewrite !length_app, length_take. lia.
    + rewrite spliced_suffix by lia.
      destruct He as [He _]. apply occurs_at_prefix in He. apply He.
  - intros other Hne. by apply lookup_insert_ne.
Qed.

(** A second file in the store, and text on both sides of the markers. *)
Lemma splice_frame_example :
  let text := lit "head " ++ Script.start_marker ++ lit " old "
                ++ Script.end_marker ++ lit " tail" in
  let w := {| files := <[Script.file_path := text]> {[ "other.js" := lit "x" ]};
              trace := [] |} in
  files w !! Script.file_path = Some text
  ∧ first_occurrence text Script.start_marker 5
  ∧ first_occurrence text Script.end_marker 61
  ∧ ∃ out, files (Script.main w).2 !! Script.file_path = Some out
           ∧ take 5 out = lit "head "
           ∧ drop (5 + length Script.new_block) out
             = Script.end_marker ++ lit " tail".
Proof.
  intros text w.
  assert (Hf : files w !! Script.file_path = Some text)
    by apply lookup_insert_eq.
  assert (Hs : first_occurrence text Script.start_marker 5)
    by by_scan.
  assert (He : first_occurrence text Script.end_marker 61)
    by by_scan.
  split; [exact Hf |]. split; [exact Hs |]. split; [exact He |].
  destruct (splice_frame Script.file_path Script.start_marker
              Script.end_marker Script.new_block w text 5 61 Hf Hs He)
    as (out & Hout & Hpre & Hpost & _).
  exists out. split; [exact Hout |]. split.
  - rewrite Hpre. reflexivity.
  - rewrite Hpost. vm_compute. reflexivity.
Defined.

(** C8.  Once the guard has passed, both offsets lie within the text, the
    two slices are plain prefix and suffix (no wrap-around from the end, no
    clamping) and the script ends normally after the write. *)
Theorem guarded_offsets_in_range
    (file_path : string) (start_marker end_marker new_block : str)
    (w : world) (text : str) :
  files w !! file_path = Some text →
  find text start_marker ≠ -1 →
  find text end_marker ≠ -1 →
  let start_idx := find text start_marker in
  let end_idx := find text end_marker in
  0 ≤ start_idx ≤ Z.of_nat (length text)
  ∧ 0 ≤ end_idx ≤ Z.of_nat (length text)
  ∧ slice_to text start_idx = take (Z.to_nat start_idx) text
  ∧ slice_from text end_idx = drop (Z.to_nat end_idx) text
  ∧ Z.of_nat (length (slice_to text start_idx)) = start_idx
  ∧ Z.of_nat (length (slice_from text end_idx)) = Z.of_nat (length text) - end_idx
  ∧ ∃ w', patcher file_path start_marker end_marker new_block w = (Ok (), w')
          ∧ files w' !! file_path = Some (splice new_block text start_idx end_idx).
Proof.
  intros Hf Hs He start_idx end_idx.
  destruct (find_range text start_marker) as [? | Hrs]; [done |].
  destruct (find_range text end_marker) as [? | Hre]; [done |].
  fold start_idx in Hrs. fold end_idx in Hre.
  assert (Hts : slice_to text start_idx = take (Z.to_nat start_idx) text).
  { rewrite <- (Z2Nat.id start_idx) at 1 by lia. apply slice_to_take. lia. }
  assert (Hte : slice_from text end_idx = drop (Z.to_nat end_idx) text).
  { rewrite <- (Z2Nat.id end_idx) at 1 by lia. apply slice_from_drop. lia. }
  split; [lia |]. split; [lia |]. split; [exact Hts |]. split; [exact Hte |].
  split; [rewrite Hts, length_take; lia |].
  split; [rewrite Hte, length_drop; lia |].
  eexists. split; [by apply run_found |]. apply lookup_insert_eq.
Qed.

Lemma guarded_offsets_example :
  let text := lit "ab" ++ Script.start_marker ++ Script.end_marker in
  let w := {| files := {[ Script.file_path := text ]}; trace := [] |} in
  files w !! Script.file_path = Some text
  ∧ find text Script.start_marker ≠ -1
  ∧ find text Script.end_marker ≠ -1
  ∧ 0 ≤ find text Script.start_marker ≤ Z.of_nat (length text)
  ∧ 0 ≤ find text Script.end_marker ≤ Z.of_nat (length text).
Proof.
  intros text w.
  assert (Hf : files w !! Script.file_path = Some text)
    by apply lookup_singleton_eq.
  assert (Hs : find text Script.start_marker ≠ -1)
    by (vm_compute; discriminate).
  assert (He : find text Script.end_marker ≠ -1)
    by (vm_compute; discriminate).
  split; [exact Hf |]. split; [exact Hs |]. split; [exact He |].
  destruct (guarded_offsets_in_range Script.file_path Script.start_marker
              Script.end_marker Script.new_block w text Hf Hs He)
    as (H1 & H2 & _).
  split; [exact H1 | exact H2].
Defined.

(** C9.  The replacement block holds neither marker.  In a patched
    document every occurrence of a marker therefore lies wholly in the kept
    prefix or wholly in the kept suffix of the original text, and the end
    marker right after the replacement is the one the suffix starts with. *)
Theorem replacement_holds_no_marker :
  ¬ occurs Script.new_block Script.start_marker
  ∧ ¬ occurs Script.new_block Script.end_marker
  ∧ ∀ (w : world) (text : str) (si ei : nat),
      files w !! Script.file_path = Some text →
      first_occurrence text Script.start_marker si →
      first_occurrence text Script.end_marker ei →
      ∃ out,
        files (Script.main w).2 !! Script.file_path = Some out
        ∧ (∀ m j,
             m = Script.start_marker ∨ m = Script.end_marker →
             occurs_at out m j →
             (occurs_at text m j ∧ (j + length m ≤ si)%nat)
             ∨ ∃ k, j = (si + length Script.new_block + k)%nat
                    ∧ occurs_at text m (ei + k))
        ∧ occurs_at (drop ei text) Script.end_marker 0
        ∧ occurs_at out Script.end_marker (si + length Script.new_block).
Proof.
  split; [apply new_block_lacks_start |].
  split; [apply new_block_lacks_end |].
  intros w text si ei Hf Hs He.
  pose proof (occurs_at_bound _ _ _ (proj1 Hs)) as Hbs.
  pose proof (occurs_at_bound _ _ _ (proj1 He)) as Hbe.
  assert (Hsuf : Script.end_marker `prefix_of` drop ei text).
  { destruct He as [He _]. apply occurs_at_prefix in He. apply He. }
  exists (take si text ++ Script.new_block ++ drop ei text).
  unfold Script.main.
  rewrite (run_patched _ _ _ _ w text si ei Hf Hs He). cbn [snd files].
  split; [apply lookup_insert_eq |]. split; [| split].
  - intros m j Hm Hj.
    destruct (marker_in_patched m _ _ j Hm Hj) as [Hpre | (k & -> & Hk)].
    + left. by apply occurs_at_take.
    + right. exists k. rewrite length_take.
      split; [lia |]. apply occurs_at_drop; [lia | done].
  - by apply occurs_at_zero.
  - apply occurs_at_prefix. split.
    + rewrite !length_app, length_take. lia.
    + by rewrite spliced_suffix by lia.
Qed.

Lemma replacement_example :
  let text := Script.start_marker ++ lit " old " ++ Script.end_marker in
  let w := {| files := {[ Script.file_path := text ]}; trace := [] |} in
  files w !! Script.file_path = Some text
  ∧ first_occurrence text Script.start_marker 0
  ∧ first_occurrence text Script.end_marker 56
  ∧ ∃ out, files (Script.main w).2 !! Script.file_path = Some out
           ∧ occurs_at out Script.end_marker (0 + length Script.new_block).
Proof.
  intros text w.
  assert (Hf : files w !! Script.file_path = Some text)
    by apply lookup_singleton_eq.
  assert (Hs : first_occurrence text Script.start_marker 0)
    by by_scan.
  assert (He : first_occurrence text Script.end_marker 56)
    by by_scan.
  split; [exact Hf |]. split; [exact Hs |]. split; [exact He |].
  destruct (proj2 (proj2 replacement_holds_no_marker) w text 0%nat 56%nat
              Hf Hs He) as (out & Hout & _ & _ & Hend).
  exists out. split; [exact Hout | exact Hend].
Defined.

(** C10.  Two runs whose target files hold the same contents behave
    alike: same result and exit status, same events (so the same printed
    line), same final contents of the target file.  Nothing else in the
    store and nothing printed earlier has any influence. *)
Theorem same_input_same_behaviour
    (file_path : string) (start_marker end_marker new_block : str)
    (w1 w2 : world) :
  files w1 !! file_path = files w2 !! file_path →
  ∃ r events w1' w2',
    patcher file_path start_marker end_marker new_block w1 = (r, w1')
    ∧ patcher file_path start_marker end_marker new_block w2 = (r, w2')
    ∧ trace w1' = trace w1 ++ events
    ∧ trace w2' = trace w2 ++ events
    ∧ files w1' !! file_path = files w2' !! file_path.
Proof.
  intros Heq. destruct (files w1 !! file_path) as [text |] eqn:Hf1.
  - symmetry in Heq.
    assert ((find text start_marker = -1 ∨ find text end_marker = -1)
            ∨ (find text start_marker ≠ -1 ∧ find text end_marker ≠ -1))
      as [Hm | [Hs He]] by lia.
    + eexists _, _, _, _.
      split; [by apply (run_not_found _ _ _ _ w1 text) |].
      split; [by apply (run_not_found _ _ _ _ w2 text) |].
      split; [reflexivity |]. split; [reflexivity |]. simpl. congruence.
    + eexists _, _, _, _.
      split; [by apply (run_found _ _ _ _ w1 text) |].
      split; [by apply (run_found _ _ _ _ w2 text) |].
      split; [reflexivity |]. split; [reflexivity |]. simpl.
      by rewrite !lookup_insert_eq.
  - symmetry in Heq. exists (Raised (FileNotFoundError file_path)), [], w1, w2.
    split; [by apply run_missing_file |].
    split; [by apply run_missing_file |].
    rewrite !app_nil_r. split; [done |]. split; [done |]. congruence.
Qed.

(** Two different stores and histories around the same document. *)
Lemma same_input_example :
  let text := Script.start_marker ++ lit " old " ++ Script.end_marker in
  let w1 := {| files := {[ Script.file_path := text ]}; trace := [] |} in
  let w2 := {| files := <[Script.file_path := text]> {[ "other.js" := lit "x" ]};
               trace := [EvPrint (lit "earlier")] |} in
  files w1 !! Script.file_path = files w2 !! Script.file_path
  ∧ ∃ r w1' w2', Script.main w1 = (r, w1') ∧ Script.main w2 = (r, w2')
                 ∧ files w1' !! Script.file_path = files w2' !! Script.file_path.
Proof.
  intros text w1 w2.
  assert (Heq : files w1 !! Script.file_path = files w2 !! Script.file_path).
  { transitivity (Some text);
      [apply lookup_singleton_eq | symmetry; apply lookup_insert_eq]. }
  split; [exact Heq |].
  destruct (same_input_same_behaviour Script.file_path Script.start_marker
              Script.end_marker Script.new_block w1 w2 Heq)
    as (r & events & w1' & w2' & H1 & H2 & _ & _ & H3).
  exists r, w1', w2'. split; [exact H1 |]. split; [exact H2 | exact H3].
Defined.

(** ** Further properties of a run *)



(** X2.  Whatever the outcome, a run leaves every other file as it was
    and neither creates nor removes a file: the store has the same paths
    before and after. *)
Theorem store_keeps_its_paths
    (file_path : string) (start_marker end_marker new_block : str)
    (w : world) :
  let w' := (patcher file_path start_marker end_marker new_block w).2 in
  (∀ other, other ≠ file_path → files w' !! other = files w !! other)
  ∧ dom (files w') = dom (files w).
Proof.
  intros w'. unfold w'.
  destruct (files w !! file_path) as [text |] eqn:Hf.
  - assert ((find text start_marker = -1 ∨ find text end_marker = -1)
            ∨ (find text start_marker ≠ -1 ∧ find text end_marker ≠ -1))
      as [Hm | [Hs Hn]] by lia.
    + by rewrite (run_not_found _ _ _ _ w text Hf Hm).
    + rewrite (run_found _ _ _ _ w text Hf Hs Hn). cbn [snd files]. split.
      * intros other Hne. by apply lookup_insert_ne.
      * rewrite dom_insert_L. apply elem_of_dom_2 in Hf.
        by apply subseteq_union_1_L, singleton_subseteq_l.
  - by rewrite (run_missing_file _ _ _ _ w Hf).
Qed.

Lemma store_keeps_its_paths_example :
  let text := Script.start_marker ++ lit " old " ++ Script.end_marker in
  let w := {| files := <[Script.file_path := text]> {[ "other.js" := lit "x" ]};
              trace := [] |} in
  files (Script.main w).2 !! "other.js" = Some (lit "x").
Proof.
  intros text w. unfold Script.main.
  rewrite (proj1 (store_keeps_its_paths Script.file_path Script.start_marker
                    Script.end_marker Script.new_block w) "other.js")
    by discriminate.
  cbn [files w]. rewrite lookup_insert_ne by discriminate.
  apply lookup_singleton_eq.
Defined.

(** X3.  When the start marker ends before the first end marker begins,
    the run removes exactly the start marker and what lies between the two
    markers: the text is prefix, start marker, middle, suffix, and the file
    ends up as prefix, replacement, suffix.  The start marker is consumed,
    the end marker is not. *)
Theorem removed_span_is_marker_and_middle
    (file_path : string) (start_marker end_marker new_block : str)
    (w : world) (text : str) (si ei : nat) :
  files w !! file_path = Some text →
  first_occurrence text start_marker si →
  first_occurrence text end_marker ei →
  (si + length start_marker ≤ ei)%nat →
  ∃ middle out,
    text = take si text ++ start_marker ++ middle ++ drop ei text
    ∧ length middle = (ei - si - length start_marker)%nat
    ∧ out = take si text ++ new_block ++ drop ei text
    ∧ files (patcher file_path start_marker end_marker new_block w).2
        !! file_path = Some out
    ∧ (length out + (ei - si) = length text + length new_block)%nat.
Proof.
  intros Hf Hs He Hle.
  pose proof (occurs_at_bound _ _ _ (proj1 Hs)) as Hbs.
  pose proof (occurs_at_bound _ _ _ (proj1 He)) as Hbe.
  exists (take (ei - si - length start_marker)
            (drop (si + length start_marker) text)),
    (take si text ++ new_block ++ drop ei text).
  split; [| split; [| split; [reflexivity | split]]].
  - destruct Hs as [Hs _]. apply occurs_at_prefix in Hs as [_ [rest Hrest]].
    assert (Hr : rest = drop (si + length start_marker) text).
    { rewrite <- drop_drop, Hrest. by rewrite drop_app_length. }
    rewrite <- Hr.
    assert (Hd : drop ei text = drop (ei - si - length start_marker) rest).
    { rewrite Hr, drop_drop. f_equal. lia. }
    rewrite Hd, take_drop, <- Hrest. by rewrite take_drop.
  - rewrite length_take, length_drop. lia.
  - rewrite (run_patched _ _ _ _ w text si ei Hf Hs He). cbn [snd files].
    apply lookup_insert_eq.
  - rewrite spliced_length by lia. lia.
Qed.

Lemma removed_span_example :
  let text := lit "head " ++ Script.start_marker ++ lit " old "
                ++ Script.end_marker ++ lit " tail" in
  let w := {| files := {[ Script.file_path := text ]}; trace := [] |} in
  files w !! Script.file_path = Some text
  ∧ first_occurrence text Script.start_marker 5
  ∧ first_occurrence text Script.end_marker 61
  ∧ (5 + length Script.start_marker ≤ 61)%nat
  ∧ ∃ middle, text = take 5 text ++ Script.start_marker ++ middle
                       ++ drop 61 text
              ∧ length middle = (61 - 5 - length Script.start_marker)%nat.
Proof.
  intros text w.
  assert (Hf : files w !! Script.file_path = Some text)
    by apply lookup_singleton_eq.
  assert (Hs : first_occurrence text Script.start_marker 5) by by_scan.
  assert (He : first_occurrence text Script.end_marker 61) by by_scan.
  assert (Hle : (5 + length Script.start_marker ≤ 61)%nat)
    by (rewrite start_marker_length; lia).
  split; [exact Hf |]. split; [exact Hs |]. split; [exact He |].
  split; [exact Hle |].
  destruct (removed_span_is_marker_and_middle Script.file_path
              Script.start_marker Script.end_marker Script.new_block
              w text 5 61 Hf Hs He Hle) as (middle & out & H1 & H2 & _).
  exists middle. split; [exact H1 | exact H2].
Defined.

(** X4.  When the first end marker does not lie after the first start
    marker, nothing of the original text is removed: the text between the
    two offsets stands on both sides of the replacement. *)
Theorem inverted_bounds_duplicate_span
    (file_path : string) (start_marker end_marker new_block : str)
    (w : world) (text : str) (si ei : nat) :
  files w !! file_path = Some text →
  first_occurrence text start_marker si →
  first_occurrence text end_marker ei →
  (ei ≤ si)%nat →
  let span := drop ei (take si text) in
  text = take ei text ++ span ++ drop si text
  ∧ files (patcher file_path start_marker end_marker new_block w).2
      !! file_path
    = Some (take ei text ++ span ++ new_block ++ span ++ drop si text).
Proof.
  intros Hf Hs He Hle span.
  pose proof (occurs_at_bound _ _ _ (proj1 Hs)) as Hbs.
  assert (Hpre : take si text = take ei text ++ span).
  { unfold span. rewrite <- (take_drop ei (take si text)) at 1.
    rewrite take_take. do 2 f_equal. lia. }
  assert (Hsuf : drop ei text = span ++ drop si text).
  { unfold span. rewrite <- (take_drop si text) at 1.
    apply drop_app_le. rewrite length_take. lia. }
  split.
  - rewrite app_assoc, <- Hpre. by rewrite take_drop.
  - rewrite (run_patched _ _ _ _ w text si ei Hf Hs He). cbn [snd files].
    rewrite lookup_insert_eq. f_equal.
    rewrite Hpre at 1. rewrite Hsuf. by rewrite <- !app_assoc.
Qed.

Lemma inverted_bounds_duplicate_example :
  let text := Script.end_marker ++ lit " mid " ++ Script.start_marker in
  let w := {| files := {[ Script.file_path := text ]}; trace := [] |} in
  files w !! Script.file_path = Some text
  ∧ first_occurrence text Script.start_marker 90
  ∧ first_occurrence text Script.end_marker 0
  ∧ (0 ≤ 90)%nat
  ∧ files (Script.main w).2 !! Script.file_path
    = Some ((Script.end_marker ++ lit " mid ") ++ Script.new_block
              ++ (Script.end_marker ++ lit " mid ") ++ Script.start_marker).
Proof.
  intros text w.
  assert (Hf : files w !! Script.file_path = Some text)
    by apply lookup_singleton_eq.
  assert (Hs : first_occurrence text Script.start_marker 90) by by_scan.
  assert (He : first_occurrence text Script.end_marker 0) by by_scan.
  assert (Hle : (0 ≤ 90)%nat) by lia.
  split; [exact Hf |]. split; [exact Hs |]. split; [exact He |].
  split; [exact Hle |].
  pose proof (proj2 (inverted_bounds_duplicate_span Script.file_path
                       Script.start_marker Script.end_marker Script.new_block
                       w text 90 0 Hf Hs He Hle)) as H.
  assert (Hspan : drop 0 (take 90 text) = Script.end_marker ++ lit " mid ")
    by (vm_compute; reflexivity).
  assert (Hrest : drop 90 text = Script.start_marker)
    by (vm_compute; reflexivity).
  assert (Hnone : take 0 text = []) by reflexivity.
  rewrite Hspan, Hrest, Hnone, app_nil_l in H.
  unfold Script.main. rewrite H. reflexivity.
Defined.

(** ** Markers that cannot overlap *)

Section overlap_facts.
Context {A : Type} `{EqDecision A}.
Implicit Types text a b pre post m : list A.

Lemma overlaps_at_of_occurrences text a b (i j : nat) :
  occurs_at text a i → occurs_at text b j →
  (i ≤ j < i + length a)%nat →
  overlaps_at a b (j - i) = true.
Proof.
  intros Ha Hb Hij.
  apply occurs_at_prefix in Ha as [_ [x Hx]].
  apply occurs_at_prefix in Hb as [_ Hb].
  assert (Hd : drop (j - i) a `prefix_of` drop j text).
  { replace j with (i + (j - i))%nat at 2 by lia.
    rewrite <- drop_drop, Hx. rewrite drop_app_le by lia. by exists x. }
  unfold overlaps_at. apply orb_true_iff.
  destruct (prefix_weak_total _ _ _ Hb Hd) as [H1 | H1];
    [left | right]; by apply startswith_prefix.
Qed.

Lemma never_inside_spec a b (k : nat) :
  never_inside a b = true → (k < length a)%nat → overlaps_at a b k = false.
Proof.
  unfold never_inside. rewrite forallb_forall. intros Hall Hk.
  apply negb_true_iff, Hall, in_seq. lia.
Qed.

Lemma occurs_at_app_r pre post m (k : nat) :
  occurs_at post m k → occurs_at (pre ++ post) m (length pre + k).
Proof.
  intros (a & b & -> & <-). exists (pre ++ a), b.
  split; [by rewrite <- app_assoc | by rewrite length_app].
Qed.
End overlap_facts.

Lemma start_never_inside_end :
  never_inside Script.end_marker Script.start_marker = true.
Proof. vm_compute. reflexivity. Qed.

Lemma end_never_inside_start :
  never_inside Script.start_marker Script.end_marker = true.
Proof. vm_compute. reflexivity. Qed.

(** X5.  The two markers of the script cannot overlap: wherever the start
    marker and the end marker occur in a text, one of them ends before the
    other begins.  In particular the two offsets are never equal. *)
Theorem marker_occurrences_disjoint (text : str) (i j : nat) :
  occurs_at text Script.start_marker i →
  occurs_at text Script.end_marker j →
  (i + length Script.start_marker ≤ j)%nat
  ∨ (j + length Script.end_marker ≤ i)%nat.
Proof.
  intros Hs He.
  destruct (decide (i + length Script.start_marker ≤ j)%nat) as [? | Hn1];
    [by left |].
  destruct (decide (j + length Script.end_marker ≤ i)%nat) as [? | Hn2];
    [by right |].
  exfalso. destruct (decide (i ≤ j)%nat) as [Hij | Hij].
  - assert (Ho : overlaps_at Script.start_marker Script.end_marker (j - i) = true)
      by (apply (overlaps_at_of_occurrences text); [done | done | lia]).
    rewrite (never_inside_spec _ _ (j - i) end_never_inside_start) in Ho
      by lia.
    discriminate.
  - assert (Ho : overlaps_at Script.end_marker Script.start_marker (i - j) = true)
      by (apply (overlaps_at_of_occurrences text); [done | done | lia]).
    rewrite (never_inside_spec _ _ (i - j) start_never_inside_end) in Ho
      by lia.
    discriminate.
Qed.

Lemma marker_occurrences_disjoint_example :
  let text := lit "a" ++ Script.start_marker ++ Script.end_marker in
  occurs_at text Script.start_marker 1
  ∧ occurs_at text Script.end_marker 52
  ∧ ((1 + length Script.start_marker ≤ 52)%nat
     ∨ (52 + length Script.end_marker ≤ 1)%nat).
Proof.
  intros text.
  assert (Hs : occurs_at text Script.start_marker 1).
  { exists (lit "a"), Script.end_marker. split; reflexivity. }
  assert (He : occurs_at text Script.end_marker 52).
  { exists (lit "a" ++ Script.start_marker), [].
    split; [by rewrite app_nil_r, <- app_assoc | vm_compute; reflexivity]. }
  split; [exact Hs |]. split; [exact He |].
  exact (marker_occurrences_disjoint text 1 52 Hs He).
Defined.

(** ** A second run, in general *)

Lemma start_marker_in_patched (text : str) (si ei : nat) :
  first_occurrence text Script.start_marker si →
  (ei ≤ length text)%nat →
  occurs (take si text ++ Script.new_block ++ drop ei text) Script.start_marker
  ↔ occurs (drop ei text) Script.start_marker.
Proof.
  intros [Hs Hmin] Hei. split.
  - intros [j Hj].
    destruct (marker_in_patched _ _ _ j (or_introl eq_refl) Hj)
      as [Hpre | (k & _ & Hk)]; [| by exists k].
    apply occurs_at_take in Hpre as [Hin Hb]. apply Hmin in Hin.
    rewrite start_marker_length in Hb. lia.
  - intros [k Hk]. eexists. rewrite app_assoc. by apply occurs_at_app_r.
Qed.

(** X6.  After a successful run of the script, a second run is decided by
    the original text alone: it aborts with status 1 exactly when no start
    marker occurs from the first end marker on, and patches again
    otherwise.  The end marker is always found again. *)
Theorem second_run_aborts_iff (w : world) (text : str) (si ei : nat) :
  files w !! Script.file_path = Some text →
  first_occurrence text Script.start_marker si →
  first_occurrence text Script.end_marker ei →
  ∃ w1 out,
    Script.main w = (Ok (), w1)
    ∧ files w1 !! Script.file_path = Some out
    ∧ occurs out Script.end_marker
    ∧ ((Script.main w1).1 = SystemExit 1
       ↔ ¬ occurs (drop ei text) Script.start_marker)
    ∧ ((Script.main w1).1 = Ok ()
       ↔ occurs (drop ei text) Script.start_marker).
Proof.
  intros Hf Hs He.
  pose proof (occurs_at_bound _ _ _ (proj1 Hs)) as Hbs.
  pose proof (occurs_at_bound _ _ _ (proj1 He)) as Hbe.
  assert (Hsi : (si ≤ length text)%nat) by lia.
  assert (Hei : (ei ≤ length text)%nat) by lia.
  pose proof (start_marker_in_patched text si ei Hs Hei) as Hiff.
  assert (Hend : occurs (take si text ++ Script.new_block ++ drop ei text)
                   Script.end_marker).
  { exists (si + length Script.new_block)%nat. apply occurs_at_prefix. split.
    - rewrite !length_app, length_take. lia.
    - rewrite (spliced_suffix text _ _ si Hsi).
      destruct He as [He _]. apply occurs_at_prefix in He. apply He. }
  pose proof (run_patched Script.file_path Script.start_marker
                Script.end_marker Script.new_block w text si ei Hf Hs He)
    as Hrun1.
  cbv zeta in Hrun1.
  remember (take si text ++ Script.new_block ++ drop ei text) as out eqn:Eout.
  remember {| files := <[Script.file_path := out]> (files w);
              trace := trace w ++
                [EvRead Script.file_path; EvWrite Script.file_path out;
                 EvPrint success_message] |} as w1 eqn:Ew1.
  assert (Hf1 : files w1 !! Script.file_path = Some out)
    by (rewrite Ew1; apply lookup_insert_eq).
  exists w1, out. unfold Script.main.
  split; [exact Hrun1 |].
  split; [exact Hf1 |]. split; [exact Hend |].
  apply find_present in Hend.
  destruct (decide (find out Script.start_marker = -1)) as [Hn | Hn].
  - rewrite (run_not_found _ _ _ _ w1 out Hf1 (or_introl Hn)). cbn [fst].
    apply find_absent in Hn. rewrite Hiff in Hn. split.
    + split; [intros _; exact Hn | reflexivity].
    + split; [discriminate | intros Ho; by destruct Hn].
  - rewrite (run_found _ _ _ _ w1 out Hf1 Hn Hend). cbn [fst].
    apply find_present in Hn. rewrite Hiff in Hn. split.
    + split; [discriminate | intros Ho; by destruct Ho].
    + split; [intros _; exact Hn | reflexivity].
Qed.

(** A start marker left behind the end marker lets the second run pass. *)
Lemma second_run_passes_example :
  let text := Script.start_marker ++ lit " a " ++ Script.end_marker
                ++ lit " b " ++ Script.start_marker in
  let w := {| files := {[ Script.file_path := text ]}; trace := [] |} in
  files w !! Script.file_path = Some text
  ∧ first_occurrence text Script.start_marker 0
  ∧ first_occurrence text Script.end_marker 54
  ∧ ∃ w1, Script.main w = (Ok (), w1) ∧ (Script.main w1).1 = Ok ().
Proof.
  intros text w.
  assert (Hf : files w !! Script.file_path = Some text)
    by apply lookup_singleton_eq.
  assert (Hs : first_occurrence text Script.start_marker 0) by by_scan.
  assert (He : first_occurrence text Script.end_marker 54) by by_scan.
  assert (Ho : occurs (drop 54 text) Script.start_marker) by by_scan.
  split; [exact Hf |]. split; [exact Hs |]. split; [exact He |].
  destruct (second_run_aborts_iff w text 0 54 Hf Hs He)
    as (w1 & out & Hrun & _ & _ & _ & Hok).
  exists w1. split; [exact Hrun |]. apply Hok. exact Ho.
Defined.

(** ** Runs that keep failing *)




(** ** Reading the diagnostic line *)

Lemma digits_range d c : c ∈ digits d → (48 ≤ c ≤ 57)%N.
Proof.
  induction d; simpl; intros Hc;
    [by apply elem_of_nil in Hc | ..];
    (apply elem_of_cons in Hc as [-> | Hc]; [lia | auto]).
Qed.

Lemma digits_inj d1 d2 : digits d1 = digits d2 → d1 = d2.
Proof.
  revert d2. induction d1; intros d2 H; destruct d2; simpl in H;
    try discriminate H; try reflexivity;
    injection H as H; f_equal; auto.
Qed.

Lemma int_str_range z c : c ∈ int_str z → c = 45%N ∨ (48 ≤ c ≤ 57)%N.
Proof.
  unfold int_str. destruct (Z.to_int z).
  - intros Hc. right. by eapply digits_range.
  - intros Hc. apply elem_of_cons in Hc as [-> | Hc];
      [by left | right; by eapply digits_range].
Qed.

Lemma int_str_inj a b : int_str a = int_str b → a = b.
Proof.
  unfold int_str. intros H.
  rewrite <- (DecimalZ.of_to a), <- (DecimalZ.of_to b).
  destruct (Z.to_int a) as [da | da], (Z.to_int b) as [db | db].
  - by rewrite (digits_inj _ _ H).
  - exfalso. assert (Hc : 45%N ∈ digits da)
      by (rewrite H; apply list_elem_of_here).
    apply digits_range in Hc. lia.
  - exfalso. assert (Hc : 45%N ∈ digits db)
      by (rewrite <- H; apply list_elem_of_here).
    apply digits_range in Hc. lia.
  - injection H as H. by rewrite (digits_inj _ _ H).
Qed.

Lemma split_at_fresh {A} (c : A) (l1 l2 r1 r2 : list A) :
  c ∉ l1 → c ∉ l2 → l1 ++ c :: r1 = l2 ++ c :: r2 → l1 = l2 ∧ r1 = r2.
Proof.
  revert l2. induction l1 as [| x l1 IH]; intros [| y l2] H1 H2 Heq;
    simpl in Heq.
  - by simplify_eq.
  - injection Heq as -> _. destruct H2. apply list_elem_of_here.
  - injection Heq as -> _. destruct H1. apply list_elem_of_here.
  - injection Heq as -> Heq.
    apply not_elem_of_cons in H1 as [_ H1].
    apply not_elem_of_cons in H2 as [_ H2].
    destruct (IH l2 H1 H2 Heq) as [-> ->]. done.
Qed.

Lemma separator_code_points :
  lit ", end=" = [44; 32; 101; 110; 100; 61]%N.
Proof. vm_compute. reflexivity. Qed.

Lemma minus_one_text : lit "-1" = int_str (-1).
Proof. vm_compute. reflexivity. Qed.

Lemma comma_not_in_int_str z : 44%N ∉ int_str z.
Proof. intros Hc. apply int_str_range in Hc. lia. Qed.

(** X8.  The diagnostic line can be read back: two runs print the same
    line only if they found the same two offsets. *)
Theorem diagnostic_determines_offsets (a b a' b' : Z) :
  not_found_message a b = not_found_message a' b' → a = a' ∧ b = b'.
Proof.
  rewrite !not_found_message_eq. intros H.
  apply app_inv_head in H. rewrite separator_code_points in H.
  simpl in H.
  apply split_at_fresh in H as [Ha Hb];
    [| apply comma_not_in_int_str | apply comma_not_in_int_str].
  split; [by apply int_str_inj |].
  injection Hb as Hb. by apply int_str_inj.
Qed.

Lemma diagnostic_determines_offsets_example :
  not_found_message (-1) 17 = not_found_message (-1) (8 + 9)
  ∧ (-1 = -1 ∧ 17 = 8 + 9).
Proof.
  assert (H : not_found_message (-1) 17 = not_found_message (-1) (8 + 9))
    by reflexivity.
  split; [exact H |].
  exact (diagnostic_determines_offsets (-1) 17 (-1) (8 + 9) H).
Defined.

(** X9.  In the diagnostic, the field of a marker reads [-1] exactly when
    that marker does not occur in the document; a marker that was found is
    reported by a number without sign. *)
Theorem diagnostic_field_minus_one_iff_absent (text marker : str) :
  (int_str (find text marker) = lit "-1" ↔ ¬ occurs text marker)
  ∧ (occurs text marker → 45%N ∉ int_str (find text marker)).
Proof.
  split.
  - rewrite minus_one_text, <- find_absent. split.
    + apply int_str_inj.
    + by intros ->.
  - intros Ho. apply find_present in Ho.
    destruct (find_range text marker) as [? | Hr]; [done |].
    unfold int_str. destruct (Z.to_int (find text marker)) as [d | d] eqn:E.
    + intros Hc. apply digits_range in Hc. lia.
    + exfalso. destruct (find text marker) as [| p | p];
        [discriminate E | discriminate E | lia].
Qed.

Lemma diagnostic_field_example :
  let text := lit "x" ++ Script.end_marker in
  int_str (find text Script.start_marker) = lit "-1"
  ∧ 45%N ∉ int_str (find text Script.end_marker).
Proof.
  intros text.
  destruct (diagnostic_field_minus_one_iff_absent text Script.start_marker)
    as [Hiff _].
  destruct (diagnostic_field_minus_one_iff_absent text Script.end_marker)
    as [_ Hfound].
  split.
  - apply Hiff. by_scan.
  - apply Hfound. by_scan.
Defined.
